(** * Path extraction and unquoting for the MySQL JSON type

    Shallow embedding of [src/util/codec/mysql/json/functions.rs]:
    [Json::extract], [Json::unquote], [unquote_string],
    [decode_escaped_unicode], [extract_json], [wrap_to_array] and
    [get_sorted_keys].

    Conventions of the embedding:
    - a Rust [char] is its Unicode scalar value, an [N]; a Rust [String]
      is the sequence of its chars (what [s.chars()] yields), a [text];
    - a [BTreeMap<String, Json>] is an association list of entries; the
      map's unique keys are the hypothesis [NoDup (map fst m)] where a
      statement needs it;
    - an [f64] is its 64-bit IEEE-754 bit pattern, a [Z];
    - a Rust panic (an index or a map lookup that fails) is [None] in the
      [option] result of the function that performs it. *)

From Stdlib Require Import List ZArith NArith Lia Bool String Ascii.
From Stdlib Require Import Permutation Sorting.Sorted.
Import ListNotations.
#[local] Set Warnings "-register-all".

Open Scope list_scope.

(** ** Text *)

Definition uchar := N.
Definition text := list uchar.

(** Chars of an ASCII literal, used to write concrete inputs. *)
Definition txt (s : string) : text :=
  map (fun a => N_of_ascii a) (list_ascii_of_string s).

Fixpoint text_eqb (a b : text) : bool :=
  match a, b with
  | [], [] => true
  | x :: a', y :: b' => N.eqb x y && text_eqb a' b'
  | _, _ => false
  end.

(** [Ord] of [String]: lexicographic on the UTF-8 bytes, which is the
    lexicographic order on the scalar values. *)
Fixpoint text_cmp (a b : text) : comparison :=
  match a, b with
  | [], [] => Eq
  | [], _ :: _ => Lt
  | _ :: _, [] => Gt
  | x :: a', y :: b' =>
      match N.compare x y with
      | Eq => text_cmp a' b'
      | c => c
      end
  end.

Definition text_leb (a b : text) : bool :=
  match text_cmp a b with Gt => false | _ => true end.

Definition text_lt (a b : text) : Prop := text_cmp a b = Lt.

(** ** The value model ([json.rs]) *)

Inductive Json : Type :=
| Object (m : list (text * Json))
| Array (a : list Json)
| Double (bits : Z)
| I64 (z : Z)
| String (s : text)
| Boolean (b : bool)
| JNone.

(** [BTreeMap::get]: the value stored under [k]. *)
Fixpoint map_get (m : list (text * Json)) (k : text) : option Json :=
  match m with
  | [] => None
  | (k', v) :: m' => if text_eqb k k' then Some v else map_get m' k
  end.

(** [map[&k]] followed by a call [f] on the value found.  Written as one
    traversal of the entries so that a recursive [f] is applied to a
    structural sub-value; [lookup_with f m k = option_map f (map_get m k)]
    is proved below.  [None] is the panic of [Index] on a missing key. *)
Fixpoint lookup_with {B} (f : Json -> B) (m : list (text * Json)) (k : text)
  : option B :=
  match m with
  | [] => None
  | (k', v) :: m' => if text_eqb k k' then Some (f v) else lookup_with f m' k
  end.

Definition contains_key (m : list (text * Json)) (k : text) : bool :=
  match map_get m k with Some _ => true | None => false end.

(** ** Path expressions ([path_expr.rs]) *)

(** Modelled from the spec: [PathLeg], [PathExpression] and the two
    asterisk constants live in [path_expr.rs], outside this file.  An
    index leg carries an [i32]; the wildcard index is [-1] and the
    wildcard key is ["*"]. *)
Inductive PathLeg : Type :=
| Key (k : text)
| Index (i : Z)
| DoubleAsterisk.

Record PathExpression : Type := mkPathExpression {
  legs : list PathLeg;
  flags : N
}.

Definition PATH_EXPR_ASTERISK : text := txt "*".
Definition PATH_EXPR_ARRAY_INDEX_ASTERISK : Z := -1.

(** [i as usize] on a 64-bit target, as a [Z]. *)
Definition usize_of_i32 (i : Z) : Z := i mod 2 ^ 64.

(** ** Helpers of the engine *)

(** The error-free part of the [option] monad: [None] is a panic. *)
Definition bind {A B} (m : option A) (f : A -> option B) : option B :=
  match m with Some a => f a | None => None end.

Notation "'let*' x := m 'in' e" := (bind m (fun x => e))
  (at level 200, x name, m at level 100, e at level 200).

(** [for c in l { ret.append(&mut f(c)) }] *)
Fixpoint flat_mapM {A B} (f : A -> option (list B)) (l : list A)
  : option (list B) :=
  match l with
  | [] => Some []
  | x :: l' =>
      let* r := f x in
      let* rs := flat_mapM f l' in
      Some (r ++ rs)
  end.

Definition wrap_to_array (j : Json) : list Json := [j].

Fixpoint insert_key (k : text) (ks : list text) : list text :=
  match ks with
  | [] => [k]
  | k' :: ks' => if text_leb k k' then k :: ks else k' :: insert_key k ks'
  end.

(** [keys.sort()]: any correct sort of [String]s gives the same result,
    equal strings being indistinguishable; insertion sort is one. *)
Fixpoint sort_keys (ks : list text) : list text :=
  match ks with
  | [] => []
  | k :: ks' => insert_key k (sort_keys ks')
  end.

Definition get_sorted_keys (m : list (text * Json)) : list text :=
  sort_keys (map fst m).

(** ** [extract_json] *)

(** [extract_json j path_expr]: recursion on the legs; for a fixed first
    leg, the inner [go] is [extract_json _ path_expr] (the unconsumed
    expression of the [DoubleAsterisk] branch), recursive on the value.
    [sub] is [extract_json _ &sub_path_expr].  The flags of an
    expression do not take part in matching. *)
Fixpoint extract_legs (ls : list PathLeg) (j : Json) {struct ls}
  : option (list Json) :=
  match ls with
  | [] => Some [j]
  | current_leg :: rest =>
      let sub := extract_legs rest in
      (fix go (j : Json) : option (list Json) :=
         match current_leg with
         | Index i =>
             let array := match j with Array a => a | _ => wrap_to_array j end in
             if Z.eqb i PATH_EXPR_ARRAY_INDEX_ASTERISK then
               flat_mapM sub array
             else if Z.ltb (usize_of_i32 i) (Z.of_nat (List.length array)) then
               match nth_error array (Z.to_nat (usize_of_i32 i)) with
               | Some c => sub c
               | None => None
               end
             else Some []
         | Key key =>
             match j with
             | Object m =>
                 if text_eqb key PATH_EXPR_ASTERISK then
                   flat_mapM
                     (fun k => match lookup_with sub m k with
                               | Some r => r
                               | None => None
                               end)
                     (get_sorted_keys m)
                 else if contains_key m key then
                   match lookup_with sub m key with
                   | Some r => r
                   | None => None
                   end
                 else Some []
             | _ => Some []
             end
         | DoubleAsterisk =>
             let* r1 := sub j in
             let* r2 :=
               match j with
               | Array a => flat_mapM go a
               | Object m =>
                   flat_mapM
                     (fun k => match lookup_with go m k with
                               | Some r => r
                               | None => None
                               end)
                     (get_sorted_keys m)
               | _ => Some []
               end in
             Some (r1 ++ r2)
         end) j
  end.

Definition extract_json (j : Json) (path_expr : PathExpression)
  : option (list Json) :=
  extract_legs (legs path_expr) j.

(** [Json::extract]: [None] outside is a panic, [Some None] is the
    function's [None]. *)
Definition extract (j : Json) (path_expr_list : list PathExpression)
  : option (option Json) :=
  let* elem_list := flat_mapM (extract_json j) path_expr_list in
  match elem_list with
  | [] => Some None
  | e :: rest =>
      if Nat.eqb (List.length path_expr_list) 1 && Nat.eqb (List.length elem_list) 1
      then Some (Some e)
      else Some (Some (Array elem_list))
  end.

(** ** Unquoting *)

(** The boxed errors of [unquote_string] and [decode_escaped_unicode]. *)
Inductive Error : Type :=
| MissingClosingQuote
| InvalidUnicode (partial : text)
| ParseIntError
| InvalidChar (s : text).

Inductive Result (A : Type) : Type :=
| Ok (a : A)
| Err (e : Error).
Arguments Ok {A} a.
Arguments Err {A} e.

Definition ESCAPED_UNICODE_BYTES_SIZE : nat := 4.

(** [char::to_digit(16)] *)
Definition hex_digit (c : uchar) : option N :=
  (if (48 <=? c) && (c <=? 57) then Some (c - 48)
  else if (97 <=? c) && (c <=? 102) then Some (c - 87)
  else if (65 <=? c) && (c <=? 70) then Some (c - 55)
  else None)%N.

Fixpoint accumulate_digits (acc : N) (ds : text) : Result N :=
  match ds with
  | [] => Ok acc
  | d :: ds' =>
      match hex_digit d with
      | None => Err ParseIntError
      | Some v =>
          let acc' := acc * 16 + v in
          if acc' <? 2 ^ 32 then accumulate_digits acc' ds'
          else Err ParseIntError
      end
  end%N.

(** [u32::from_str_radix(s, 16)]: an optional leading ['+'], then at least
    one digit; a [u32] accepts no ['-'].  (The library works on the UTF-8
    bytes; a non-ASCII char is an invalid digit there as here.) *)
Definition u32_from_str_radix16 (s : text) : Result N :=
  match s with
  | [] => Err ParseIntError
  | c :: s' =>
      let digits := if N.eqb c 43 then s' else s in
      match digits with
      | [] => Err ParseIntError
      | _ => accumulate_digits 0 digits
      end
  end.

(** [char::from_u32]: the Unicode scalar values. *)
Definition char_from_u32 (u : N) : option uchar :=
  (if (u <? 55296) || ((57344 <=? u) && (u <=? 1114111)) then Some u
   else None)%N.

Definition decode_escaped_unicode (s : text) : Result uchar :=
  match u32_from_str_radix16 s with
  | Err e => Err e
  | Ok u =>
      match char_from_u32 u with
      | Some c => Ok c
      | None => Err (InvalidChar s)
      end
  end.

(** The arms of [match c] that push one fixed char. *)
Definition simple_escape (c : uchar) : option uchar :=
  (if N.eqb c 34 then Some 34          (* quote *)
  else if N.eqb c 98 then Some 8      (* b *)
  else if N.eqb c 102 then Some 12    (* f *)
  else if N.eqb c 110 then Some 10    (* n *)
  else if N.eqb c 114 then Some 13    (* r *)
  else if N.eqb c 116 then Some 11    (* t *)
  else if N.eqb c 92 then Some 92     (* backslash *)
  else None)%N.

(** The [while let Some(ch) = chars.next()] loop; [ret] is the output so
    far, [chars] the rest of the iterator. *)
Fixpoint unquote_loop (ret : text) (chars : text) : Result text :=
  match chars with
  | [] => Ok ret
  | ch :: chars1 =>
      if N.eqb ch 92 then
        match chars1 with
        | [] => Err MissingClosingQuote
        | c :: chars2 =>
            if N.eqb c 117 then
              match chars2 with
              | u1 :: u2 :: u3 :: u4 :: chars3 =>
                  match decode_escaped_unicode [u1; u2; u3; u4] with
                  | Err e => Err e
                  | Ok utf8 => unquote_loop (ret ++ [utf8]) chars3
                  end
              | partial => Err (InvalidUnicode partial)
              end
            else
              match simple_escape c with
              | Some e => unquote_loop (ret ++ [e]) chars2
              | None => unquote_loop (ret ++ [c]) chars2
              end
        end
      else unquote_loop (ret ++ [ch]) chars1
  end.

Definition unquote_string (s : text) : Result text := unquote_loop [] s.

(** ** Text form of a value *)

Fixpoint join (sep : text) (l : list text) : text :=
  match l with
  | [] => []
  | [x] => x
  | x :: l' => x ++ sep ++ join sep l'
  end.

Fixpoint n_digits (fuel : nat) (n : N) (acc : text) : text :=
  match fuel with
  | O => acc
  | S f =>
      let acc' := (48 + n mod 10)%N :: acc in
      if (n <? 10)%N then acc' else n_digits f (n / 10)%N acc'
  end.

Definition n_to_dec (n : N) : text := n_digits (S (N.size_nat n)) n [].

Definition z_to_dec (z : Z) : text :=
  if (z <? 0)%Z then 45%N :: n_to_dec (Z.abs_N z) else n_to_dec (Z.to_N z).

Section Unquote.

(** Shortest round-tripping decimal form of an [f64] given by its bits. *)
Variable show_f64 : Z -> text.

(** Modelled from the spec: the [Debug] text form of [Json] used by
    [unquote] lives in [json.rs], outside this file (spec 4.1): [null],
    [true]/[false], decimal integers, the shortest decimal of a double,
    the raw stored text of a string, [[a,b]] for arrays and
    [{"k":v}] for objects (the quote is char 34, the colon 58). *)
Fixpoint json_text (j : Json) : text :=
  match j with
  | JNone => txt "null"
  | Boolean true => txt "true"
  | Boolean false => txt "false"
  | I64 z => z_to_dec z
  | Double bits => show_f64 bits
  | String s => s
  | Array a => txt "[" ++ join (txt ",") (map json_text a) ++ txt "]"
  | Object m =>
      txt "{" ++
      join (txt ",")
        (map (fun kv => [34%N] ++ fst kv ++ [34%N; 58%N] ++ json_text (snd kv)) m)
      ++ txt "}"
  end.

Definition unquote (j : Json) : Result text :=
  match j with
  | String s => unquote_string s
  | _ => Ok (json_text j)
  end.

End Unquote.

Definition map_res {A B} (f : A -> B) (r : Result A) : Result B :=
  match r with Ok a => Ok (f a) | Err e => Err e end.

(** The escapes of spec 4.2 that stand for one fixed char. *)
Definition escape_table : list (uchar * uchar) :=
  [(34, 34); (98, 8); (102, 12); (110, 10); (114, 13); (116, 11); (92, 92)]%N.

(** ** The tests of [functions.rs], evaluated *)

Definition obj_m : list (text * Json) :=
  [(txt "a", String (txt "a1")); (txt "b", Double 4626367452097563361);
   (txt "c", Boolean false)].
Definition pe (ls : list PathLeg) : PathExpression := mkPathExpression ls 0.

Example test_extract_index0 :
  extract (Array [Boolean true; I64 2017]) [pe [Index 0]] = Some (Some (Boolean true)).
Proof. reflexivity. Qed.
Example test_extract_index_star :
  extract (Array [Boolean true; I64 2017]) [pe [Index (-1)]]
  = Some (Some (Array [Boolean true; I64 2017])).
Proof. reflexivity. Qed.
Example test_extract_index2 :
  extract (Array [Boolean true; I64 2017]) [pe [Index 2]] = Some None.
Proof. reflexivity. Qed.
Example test_extract_key_star :
  extract (Object (rev obj_m)) [pe [Key (txt "*")]]
  = Some (Some (Array [String (txt "a1"); Double 4626367452097563361; Boolean false])).
Proof. reflexivity. Qed.
Example test_extract_dstar :
  extract (Array [Object obj_m; Boolean true]) [pe [DoubleAsterisk; Key (txt "c")]]
  = Some (Some (Boolean false)).
Proof. reflexivity. Qed.
Example test_unquote_t : unquote_string (txt "\t") = Ok [11%N].
Proof. reflexivity. Qed.
Example test_unquote_u : unquote_string (txt "0\u597d0") = Ok [48; 22909; 48]%N.
Proof. reflexivity. Qed.
Example test_z_to_dec : z_to_dec 2017 = txt "2017" /\ z_to_dec (-40) = txt "-40".
Proof. split; reflexivity. Qed.
Example test_unquote_bad : unquote_string (txt "\u59") = Err (InvalidUnicode (txt "59")).
Proof. reflexivity. Qed.

(** ** Notions used by the statements *)

(** The local [array] of the [Index] branch. *)
Definition as_array (j : Json) : list Json :=
  match j with Array a => a | _ => wrap_to_array j end.

(** The values of an object in ascending order of their keys. *)
Definition sorted_values (m : list (text * Json)) : list Json :=
  flat_map (fun k => match map_get m k with Some v => [v] | None => [] end)
    (get_sorted_keys m).

(** The children visited by the [DoubleAsterisk] branch. *)
Definition json_children (j : Json) : list Json :=
  match j with
  | Array a => a
  | Object m => sorted_values m
  | _ => []
  end.

Definition text_le (a b : text) : Prop := text_leb a b = true.

Fixpoint json_size (j : Json) : nat :=
  match j with
  | Array a => S (list_sum (map json_size a))
  | Object m => S (list_sum (map (fun '(_, v) => json_size v) m))
  | _ => 1
  end.


(** The recursive calls of [extract_json]: [rec_call (c, ls') (j, ls)]
    when [extract_json j ls] calls [extract_json c ls'] directly (the
    calls of lines 114, 117, 125, 128, 133, 137 and 143 of the source). *)
Inductive rec_call : Json * list PathLeg -> Json * list PathLeg -> Prop :=
| call_index_star : forall j rest c,
    In c (as_array j) ->
    rec_call (c, rest) (j, Index PATH_EXPR_ARRAY_INDEX_ASTERISK :: rest)
| call_index : forall j i rest c,
    i <> PATH_EXPR_ARRAY_INDEX_ASTERISK ->
    Z.ltb (usize_of_i32 i) (Z.of_nat (List.length (as_array j))) = true ->
    nth_error (as_array j) (Z.to_nat (usize_of_i32 i)) = Some c ->
    rec_call (c, rest) (j, Index i :: rest)
| call_key_star : forall m rest k v,
    In k (get_sorted_keys m) -> map_get m k = Some v ->
    rec_call (v, rest) (Object m, Key PATH_EXPR_ASTERISK :: rest)
| call_key : forall m rest k v,
    k <> PATH_EXPR_ASTERISK -> map_get m k = Some v ->
    rec_call (v, rest) (Object m, Key k :: rest)
| call_dstar_here : forall j rest,
    rec_call (j, rest) (j, DoubleAsterisk :: rest)
| call_dstar_child : forall j rest c,
    In c (json_children j) ->
    rec_call (c, DoubleAsterisk :: rest) (j, DoubleAsterisk :: rest).

(** ** The fault-injecting transport of [tests/raftstore/transport_simulate.rs] *)

Module TransportSimulate.

(** [Strategy]: a drop rate in percent ([u32]), a latency in
    milliseconds ([u64]), or reordering. *)
Inductive Strategy : Type :=
| DropPacket (rate : Z)
| Delay (latency : Z)
| OutOfOrder.

(** The boxed [Filter] trait objects: [FilterDropPacket], [FilterDelay]
    and [FilterOutOfOrder]. *)
Inductive Filter : Type :=
| FilterDropPacket (rate : Z)
| FilterDelay (duration : Z)
| FilterOutOfOrder.

(** [raftstore::Result<()>] *)
Inductive SendResult (E : Type) : Type :=
| ROk
| RErr (e : E).
Arguments ROk {E}.
Arguments RErr {E} e.

(** The arm of [match s] in [SimulateTransport::new]. *)
Definition filter_of (s : Strategy) : Filter :=
  match s with
  | DropPacket rate => FilterDropPacket rate
  | Delay latency => FilterDelay latency
  | OutOfOrder => FilterOutOfOrder
  end.

(** [SimulateTransport::new]: the [filters] vector it builds. *)
Definition new_filters (strategy : list Strategy) : list Filter :=
  fold_left (fun filters s => filters ++ [filter_of s]) strategy [].

Section Send.
Variables Msg T E : Type.

(** [send] of the wrapped transport, on the state of that transport. *)
Variable trans_send : T -> Msg -> T * SendResult E.

(** What [send] reads and changes: the stream of [rand::random::<u32>()]
    and how many values have been drawn from it, the time slept by
    [sleep_ms], and the state of the wrapped transport.  The [RwLock] is
    only read: it is poisoned only by a panic of another holder, which
    this single call does not model. *)
Record World : Type := mkWorld {
  rng : nat -> Z;
  draws : nat;
  clock : Z;
  inner : T
}.

Definition random_u32 (w : World) : Z * World :=
  ((rng w (draws w) mod 2 ^ 32)%Z, mkWorld (rng w) (S (draws w)) (clock w) (inner w)).

Definition sleep_ms (ms : Z) (w : World) : World :=
  mkWorld (rng w) (draws w) (clock w + ms)%Z (inner w).

(** [Filter::before]; [None] is the panic of [unimplemented!()]. *)
Definition before (f : Filter) (w : World) : option (World * bool) :=
  match f with
  | FilterDropPacket rate =>
      let (r, w') := random_u32 w in Some (w', Z.ltb (r mod 100)%Z rate)
  | FilterDelay duration => Some (sleep_ms duration w, false)
  | FilterOutOfOrder => None
  end.

(** [Filter::after]; [None] is the panic of [unimplemented!()]. *)
Definition after (f : Filter) (x : SendResult E) : option (SendResult E) :=
  match f with
  | FilterOutOfOrder => None
  | _ => Some x
  end.

(** [for strategy in &self.filters { if strategy.before(&msg) { discard = true; } }] *)
Fixpoint run_before (filters : list Filter) (w : World) (discard : bool)
  : option (World * bool) :=
  match filters with
  | [] => Some (w, discard)
  | f :: filters' =>
      match before f w with
      | None => None
      | Some (w', b) => run_before filters' w' (if b then true else discard)
      end
  end.

(** [for strategy in ... { res = strategy.after(res); }] *)
Fixpoint run_after (filters : list Filter) (res : SendResult E)
  : option (SendResult E) :=
  match filters with
  | [] => Some res
  | f :: filters' =>
      match after f res with
      | None => None
      | Some res' => run_after filters' res'
      end
  end.

(** [<SimulateTransport<T> as Transport>::send] *)
Definition send (filters : list Filter) (w : World) (msg : Msg)
  : option (World * SendResult E) :=
  match run_before filters w false with
  | None => None
  | Some (w1, discard) =>
      let (w2, res) :=
        if negb discard then
          let (t', r) := trans_send (inner w1) msg in
          (mkWorld (rng w1) (draws w1) (clock w1) t', r)
        else (w1, ROk) in
      match run_after (rev filters) res with
      | None => None
      | Some res' => Some (w2, res')
      end
  end.

End Send.

Arguments mkWorld {T}.
Arguments rng {T}.
Arguments draws {T}.
Arguments clock {T}.
Arguments inner {T}.
Arguments random_u32 {T}.
Arguments sleep_ms {T}.
Arguments before {T}.
Arguments after {E}.
Arguments run_before {T}.
Arguments run_after {E}.
Arguments send {Msg T E}.

(** Per filter list: the random values drawn, the time slept, and
    whether some [DropPacket] filter drops the message when the draws
    start at position [n] of the stream. *)
Fixpoint drop_count (fs : list Filter) : nat :=
  match fs with
  | [] => O
  | FilterDropPacket _ :: fs' => S (drop_count fs')
  | _ :: fs' => drop_count fs'
  end.

Fixpoint total_delay (fs : list Filter) : Z :=
  match fs with
  | [] => 0%Z
  | FilterDelay d :: fs' => (d + total_delay fs')%Z
  | _ :: fs' => total_delay fs'
  end.

Fixpoint drops (fs : list Filter) (rng : nat -> Z) (n : nat) : bool :=
  match fs with
  | [] => false
  | FilterDropPacket rate :: fs' =>
      Z.ltb ((rng n mod 2 ^ 32) mod 100)%Z rate || drops fs' rng (S n)
  | _ :: fs' => drops fs' rng n
  end.

End TransportSimulate.

(** A wrapped transport that records the delivered messages. *)
Definition record_send (t : list nat) (m : nat)
  : list nat * TransportSimulate.SendResult unit :=
  (m :: t, TransportSimulate.ROk).

Definition world0 : TransportSimulate.World (list nat) :=
  TransportSimulate.mkWorld (fun n => Z.of_nat (73 + 37 * n)) 0 0 [].

(** ** Induction on values *)

Section JsonInd.
Variable P : Json -> Prop.
Hypothesis HObject : forall m, Forall (fun kv => P (snd kv)) m -> P (Object m).
Hypothesis HArray : forall a, Forall P a -> P (Array a).
Hypothesis HDouble : forall b, P (Double b).
Hypothesis HI64 : forall z, P (I64 z).
Hypothesis HString : forall s, P (String s).
Hypothesis HBoolean : forall b, P (Boolean b).
Hypothesis HNone : P JNone.

Fixpoint json_ind' (j : Json) : P j :=
  match j with
  | Object m =>
      HObject m
        ((fix go (m : list (text * Json)) : Forall (fun kv => P (snd kv)) m :=
            match m with
            | [] => Forall_nil _
            | (k, v) :: m' => @Forall_cons _ _ (k, v) m' (json_ind' v) (go m')
            end) m)
  | Array a =>
      HArray a
        ((fix go (a : list Json) : Forall P a :=
            match a with
            | [] => Forall_nil _
            | x :: a' => Forall_cons x (json_ind' x) (go a')
            end) a)
  | Double b => HDouble b
  | I64 z => HI64 z
  | String s => HString s
  | Boolean b => HBoolean b
  | JNone => HNone
  end.
End JsonInd.

(** ** Text order *)

Lemma text_eqb_eq : forall a b, text_eqb a b = true <-> a = b.
Proof.
  induction a as [|x a IH]; intros [|y b]; simpl;
    try (split; intro H; congruence).
  rewrite andb_true_iff, N.eqb_eq, IH.
  split; [intros [-> ->]; reflexivity | intros H; injection H; auto].
Qed.

Lemma text_eqb_refl : forall a, text_eqb a a = true.
Proof. intros a; apply text_eqb_eq; reflexivity. Qed.

Lemma text_cmp_eq : forall a b, text_cmp a b = Eq -> a = b.
Proof.
  induction a as [|x a IH]; intros [|y b]; simpl; try congruence.
  destruct (N.compare_spec x y) as [Hc|Hc|Hc]; intros H; try congruence.
  subst; f_equal; auto.
Qed.

Lemma text_cmp_refl : forall a, text_cmp a a = Eq.
Proof. induction a as [|x a IH]; simpl; auto. rewrite N.compare_refl; auto. Qed.

Lemma text_cmp_antisym : forall a b, text_cmp b a = CompOpp (text_cmp a b).
Proof.
  induction a as [|x a IH]; intros [|y b]; simpl; auto.
  rewrite (N.compare_antisym x y).
  destruct (N.compare x y); simpl; auto.
Qed.

Lemma text_cmp_lt_trans : forall a b c,
  text_cmp a b = Lt -> text_cmp b c = Lt -> text_cmp a c = Lt.
Proof.
  induction a as [|x a IH]; intros [|y b] [|z c]; simpl; try congruence.
  destruct (N.compare_spec x y) as [Hxy|Hxy|Hxy];
    destruct (N.compare_spec y z) as [Hyz|Hyz|Hyz];
    intros H1 H2; try congruence; subst.
  - rewrite N.compare_refl; eauto.
  - rewrite (proj2 (N.compare_lt_iff _ _) Hyz); reflexivity.
  - rewrite (proj2 (N.compare_lt_iff _ _) Hxy); reflexivity.
  - rewrite (proj2 (N.compare_lt_iff x z)) by lia; reflexivity.
Qed.

Lemma text_leb_trans : forall a b c,
  text_leb a b = true -> text_leb b c = true -> text_leb a c = true.
Proof.
  unfold text_leb; intros a b c H1 H2.
  destruct (text_cmp a b) eqn:E1; try discriminate.
  - apply text_cmp_eq in E1; subst; exact H2.
  - destruct (text_cmp b c) eqn:E2; try discriminate.
    + apply text_cmp_eq in E2; subst; rewrite E1; reflexivity.
    + rewrite (text_cmp_lt_trans _ _ _ E1 E2); reflexivity.
Qed.

Lemma text_leb_total : forall a b, text_leb a b = false -> text_leb b a = true.
Proof.
  unfold text_leb; intros a b H.
  rewrite text_cmp_antisym; destruct (text_cmp a b); simpl; congruence.
Qed.

Lemma text_leb_antisym : forall a b,
  text_leb a b = true -> text_leb b a = true -> a = b.
Proof.
  unfold text_leb; intros a b H1 H2.
  rewrite text_cmp_antisym in H2.
  destruct (text_cmp a b) eqn:E; simpl in *; try discriminate.
  apply text_cmp_eq; exact E.
Qed.

(** ** Sorting the keys *)

Lemma insert_key_perm : forall k ks, Permutation (insert_key k ks) (k :: ks).
Proof.
  intros k ks; induction ks as [|k' ks IH]; simpl; auto.
  destruct (text_leb k k'); auto.
  eapply perm_trans; [apply perm_skip, IH | apply perm_swap].
Qed.

Lemma sort_keys_perm : forall ks, Permutation (sort_keys ks) ks.
Proof.
  induction ks as [|k ks IH]; simpl; auto.
  eapply perm_trans; [apply insert_key_perm | apply perm_skip, IH].
Qed.

Lemma insert_key_sorted : forall k ks,
  Sorted text_le ks -> Sorted text_le (insert_key k ks).
Proof.
  intros k ks H; induction H as [|k' ks Hs IH Hd]; simpl.
  - repeat constructor.
  - destruct (text_leb k k') eqn:E.
    + constructor; [constructor; auto | constructor; exact E].
    + constructor; [exact IH |].
      destruct ks as [|k'' ks']; simpl.
      * constructor; apply text_leb_total; exact E.
      * destruct (text_leb k k''); constructor.
        -- apply text_leb_total; exact E.
        -- inversion Hd; assumption.
Qed.

Lemma sort_keys_sorted : forall ks, Sorted text_le (sort_keys ks).
Proof. induction ks; simpl; auto using insert_key_sorted. Qed.

(** Case analysis on the comparisons of a goal about [insert_key]. *)
Ltac leb_cases :=
  repeat match goal with
  | |- context [text_leb ?a ?b] =>
      let E := fresh "E" in destruct (text_leb a b) eqn:E; simpl
  end.

Ltac leb_close :=
  repeat match goal with
  | H : text_leb ?a ?b = false |- _ =>
      pose proof (text_leb_total _ _ H); revert H
  end; intros;
  repeat match goal with
  | H1 : text_leb ?a ?b = true, H2 : text_leb ?b ?a = true |- _ =>
      pose proof (text_leb_antisym _ _ H1 H2); clear H1 H2; subst
  end;
  first
  [ reflexivity
  | congruence
  | match goal with
    | H1 : text_leb ?a ?b = true, H2 : text_leb ?b ?c = true,
      H3 : text_leb ?a ?c = false |- _ =>
        rewrite (text_leb_trans _ _ _ H1 H2) in H3; discriminate
    end ].

Lemma insert_key_swap : forall x y ks,
  insert_key x (insert_key y ks) = insert_key y (insert_key x ks).
Proof.
  intros x y ks; induction ks as [|z ks IH]; simpl.
  - leb_cases; leb_close.
  - destruct (text_leb y z) eqn:Eyz, (text_leb x z) eqn:Exz; simpl;
      [leb_cases; leb_close | leb_cases; leb_close | leb_cases; leb_close
      | rewrite IH; simpl; rewrite Eyz, Exz; reflexivity].
Qed.

Lemma sort_keys_perm_eq : forall ks ks',
  Permutation ks ks' -> sort_keys ks = sort_keys ks'.
Proof.
  intros ks ks' H; induction H; simpl; auto.
  - rewrite IHPermutation; reflexivity.
  - apply insert_key_swap.
  - congruence.
Qed.

(** ** Map lookups *)

Lemma lookup_with_spec : forall {B} (f : Json -> B) m k,
  lookup_with f m k = option_map f (map_get m k).
Proof.
  intros B f m k; induction m as [|[k' v] m IH]; simpl; auto.
  destruct (text_eqb k k'); auto.
Qed.

Lemma map_get_in_keys : forall m k,
  In k (map fst m) -> exists v, map_get m k = Some v.
Proof.
  intros m k; induction m as [|[k' v] m IH]; simpl; intros H; [contradiction|].
  destruct (text_eqb k k') eqn:E; eauto.
  destruct H as [<-|H]; auto.
  rewrite text_eqb_refl in E; discriminate.
Qed.

Lemma map_get_in : forall m k v, map_get m k = Some v -> In (k, v) m.
Proof.
  intros m k v; induction m as [|[k' v'] m IH]; simpl; [discriminate|].
  destruct (text_eqb k k') eqn:E; auto.
  apply text_eqb_eq in E; subst; intros H; injection H; intros ->; auto.
Qed.

Lemma map_get_perm : forall m m' k,
  Permutation m m' -> NoDup (map fst m) -> map_get m k = map_get m' k.
Proof.
  intros m m' k H; induction H as [| [k1 v1] l l' _ IH | [k1 v1] [k2 v2] l
                                  | l l' l'' H1 IH1 _ IH2]; intros Hnd; simpl; auto.
  - inversion Hnd; subst; destruct (text_eqb k k1); auto.
  - simpl in Hnd; inversion Hnd as [|? ? Hn Hnd']; subst.
    destruct (text_eqb k k2) eqn:E2, (text_eqb k k1) eqn:E1; auto.
    apply text_eqb_eq in E1; apply text_eqb_eq in E2; subst.
    exfalso; apply Hn; left; reflexivity.
  - rewrite IH1 by exact Hnd; apply IH2.
    eapply Permutation_NoDup; [apply Permutation_map, H1 | exact Hnd].
Qed.

Lemma get_sorted_keys_in : forall m k, In k (get_sorted_keys m) -> In k (map fst m).
Proof.
  unfold get_sorted_keys; intros m k H.
  eapply Permutation_in; [apply sort_keys_perm | exact H].
Qed.

(** [map[&k]] on each sorted key: the lookups never fail. *)
Lemma flat_mapM_lookup : forall (f : Json -> option (list Json)) m ks,
  (forall k, In k ks -> In k (map fst m)) ->
  flat_mapM (fun k => match lookup_with f m k with Some r => r | None => None end) ks
  = flat_mapM f (flat_map (fun k => match map_get m k with
                                    | Some v => [v] | None => [] end) ks).
Proof.
  intros f m ks Hks; induction ks as [|k ks IH]; simpl; auto.
  destruct (map_get_in_keys m k) as [v Hv]; [apply Hks; left; auto|].
  rewrite lookup_with_spec, Hv; simpl.
  rewrite IH by (intros; apply Hks; right; auto).
  reflexivity.
Qed.

Lemma sorted_values_in : forall m v, In v (sorted_values m) -> exists k, In (k, v) m.
Proof.
  unfold sorted_values; intros m v H.
  apply in_flat_map in H; destruct H as [k [_ Hk]].
  destruct (map_get m k) as [v'|] eqn:E; [|contradiction].
  destruct Hk as [<-|[]]; exists k; apply map_get_in; exact E.
Qed.

(** ** One step of [extract_json] per leg *)

Lemma object_or_not : forall j, (exists m, j = Object m) \/ (forall m, j <> Object m).
Proof.
  intros [m| | | | | |]; [left; eauto | right; intros m'; discriminate ..].
Qed.

Lemma extract_legs_index : forall rest i j,
  extract_legs (Index i :: rest) j =
  if Z.eqb i PATH_EXPR_ARRAY_INDEX_ASTERISK then
    flat_mapM (extract_legs rest) (as_array j)
  else if Z.ltb (usize_of_i32 i) (Z.of_nat (List.length (as_array j))) then
    match nth_error (as_array j) (Z.to_nat (usize_of_i32 i)) with
    | Some c => extract_legs rest c
    | None => None
    end
  else Some [].
Proof. intros rest i []; reflexivity. Qed.

Lemma extract_legs_key_other : forall rest k j,
  (forall m, j <> Object m) -> extract_legs (Key k :: rest) j = Some [].
Proof.
  intros rest k [m| | | | | |] H; try reflexivity.
  exfalso; exact (H m eq_refl).
Qed.

Lemma extract_legs_key_star : forall rest m,
  extract_legs (Key PATH_EXPR_ASTERISK :: rest) (Object m)
  = flat_mapM (extract_legs rest) (sorted_values m).
Proof.
  intros rest m.
  change (extract_legs (Key PATH_EXPR_ASTERISK :: rest) (Object m)) with
    (flat_mapM (fun k => match lookup_with (extract_legs rest) m k with
                         | Some r => r | None => None end) (get_sorted_keys m)).
  unfold sorted_values; apply flat_mapM_lookup, get_sorted_keys_in.
Qed.

Lemma extract_legs_key_lit : forall rest m k,
  k <> PATH_EXPR_ASTERISK ->
  extract_legs (Key k :: rest) (Object m)
  = match map_get m k with Some v => extract_legs rest v | None => Some [] end.
Proof.
  intros rest m k Hk; cbn [extract_legs].
  destruct (text_eqb k PATH_EXPR_ASTERISK) eqn:E.
  - apply text_eqb_eq in E; contradiction.
  - unfold contains_key; rewrite lookup_with_spec.
    destruct (map_get m k); reflexivity.
Qed.

Lemma extract_legs_dstar : forall rest j,
  extract_legs (DoubleAsterisk :: rest) j =
  let* r1 := extract_legs rest j in
  let* r2 := flat_mapM (extract_legs (DoubleAsterisk :: rest)) (json_children j) in
  Some (r1 ++ r2).
Proof.
  intros rest [m| | | | | |]; try reflexivity.
  simpl json_children; unfold sorted_values.
  rewrite <- flat_mapM_lookup by apply get_sorted_keys_in.
  reflexivity.
Qed.

(** ** No panic *)

Lemma flat_mapM_some : forall {A B} (f : A -> option (list B)) l,
  (forall x, In x l -> f x <> None) -> flat_mapM f l <> None.
Proof.
  intros A B f l H; induction l as [|x l IH]; simpl; [discriminate|].
  destruct (f x) eqn:E; [| exfalso; exact (H x (or_introl eq_refl) E)].
  simpl; destruct (flat_mapM f l) eqn:E2; simpl; [discriminate|].
  apply IH; intros; apply H; right; assumption.
Qed.

Lemma extract_legs_some : forall ls j, extract_legs ls j <> None.
Proof.
  induction ls as [|leg rest IH]; intros j; [discriminate|].
  destruct leg as [k|i|].
  - destruct (object_or_not j) as [[m ->]|Hj].
    + destruct (text_eqb k PATH_EXPR_ASTERISK) eqn:E.
      * apply text_eqb_eq in E; subst.
        rewrite extract_legs_key_star; apply flat_mapM_some; auto.
      * rewrite extract_legs_key_lit
          by (intros ->; rewrite text_eqb_refl in E; discriminate).
        destruct (map_get m k); [apply IH | discriminate].
    + rewrite extract_legs_key_other by exact Hj; discriminate.
  - rewrite extract_legs_index.
    destruct (Z.eqb i PATH_EXPR_ARRAY_INDEX_ASTERISK);
      [apply flat_mapM_some; auto|].
    destruct (Z.ltb _ _) eqn:Hlt; [|discriminate].
    destruct (nth_error _ _) eqn:En; [apply IH|].
    apply nth_error_None in En; apply Z.ltb_lt in Hlt.
    unfold usize_of_i32 in *; pose proof (Z.mod_pos_bound i (2 ^ 64)); lia.
  - assert (Hch : forall j0,
              (forall c, In c (json_children j0) ->
                         extract_legs (DoubleAsterisk :: rest) c <> None) ->
              extract_legs (DoubleAsterisk :: rest) j0 <> None).
    { intros j0 Hc; rewrite extract_legs_dstar.
      destruct (extract_legs rest j0) eqn:E1; [| exfalso; exact (IH j0 E1)].
      simpl; destruct (flat_mapM _ (json_children j0)) eqn:E2; simpl;
        [discriminate|].
      exfalso; exact (flat_mapM_some _ _ Hc E2). }
    induction j as [m Hm|a Ha| | | | |] using json_ind'; apply Hch;
      simpl json_children; try (intros c []).
    + intros c Hc; apply sorted_values_in in Hc as [k Hk].
      exact (proj1 (Forall_forall _ _) Hm _ Hk).
    + intros c Hc; exact (proj1 (Forall_forall _ _) Ha _ Hc).
Qed.

Lemma flat_mapM_forall2 : forall {A B} (f : A -> option (list B)) l ls,
  Forall2 (fun x r => f x = Some r) l ls -> flat_mapM f l = Some (List.concat ls).
Proof.
  intros A B f l ls H; induction H as [|x r l ls Hx _ IH]; simpl; auto.
  rewrite Hx, IH; reflexivity.
Qed.

Lemma nth_in_bounds : forall (l : list Json) i,
  Z.ltb (usize_of_i32 i) (Z.of_nat (List.length l)) = true ->
  nth_error l (Z.to_nat (usize_of_i32 i)) <> None.
Proof.
  intros l i Hlt En; apply nth_error_None in En; apply Z.ltb_lt in Hlt.
  unfold usize_of_i32 in *; pose proof (Z.mod_pos_bound i (2 ^ 64)); lia.
Qed.

Lemma usize_of_i32_nat : forall n, (Z.of_nat n < 2 ^ 31)%Z ->
  usize_of_i32 (Z.of_nat n) = Z.of_nat n.
Proof. intros n H; unfold usize_of_i32; apply Z.mod_small; lia. Qed.

(** A leg that is neither a wildcard nor a [DoubleAsterisk]. *)
Definition no_wildcard (l : PathLeg) : bool :=
  match l with
  | Key k => negb (text_eqb k PATH_EXPR_ASTERISK)
  | Index i => negb (Z.eqb i PATH_EXPR_ARRAY_INDEX_ASTERISK)
  | DoubleAsterisk => false
  end.

Lemma extract_legs_no_wildcard : forall ls j,
  forallb no_wildcard ls = true ->
  exists l, extract_legs ls j = Some l /\ (List.length l <= 1)%nat.
Proof.
  induction ls as [|leg rest IH]; intros j Hw.
  - exists [j]; split; [reflexivity | simpl; lia].
  - simpl in Hw; apply andb_true_iff in Hw as [Hleg Hrest].
    destruct leg as [k|i|]; simpl in Hleg; try discriminate.
    + apply negb_true_iff in Hleg.
      destruct (object_or_not j) as [[m ->]|Hj].
      * rewrite extract_legs_key_lit
          by (intros ->; rewrite text_eqb_refl in Hleg; discriminate).
        destruct (map_get m k) as [v|]; [apply IH; exact Hrest|].
        exists []; split; [reflexivity | simpl; lia].
      * rewrite extract_legs_key_other by exact Hj.
        exists []; split; [reflexivity | simpl; lia].
    + apply negb_true_iff in Hleg; rewrite extract_legs_index, Hleg.
      destruct (Z.ltb _ _) eqn:Hlt.
      * destruct (nth_error _ _) eqn:En; [apply IH; exact Hrest|].
        exfalso; exact (nth_in_bounds _ _ Hlt En).
      * exists []; split; [reflexivity | simpl; lia].
Qed.

(** ** Claims about [Json::extract] and [extract_json] *)

(** C1. [extract j exprs] concatenates the match lists of the expressions
    in order; an empty result is [None]; one expression with exactly one
    match gives that match unwrapped, whatever the expression (wildcards
    included); otherwise the result is an [Array] of all the matches. *)
Theorem extract_aggregation : forall j pes lss,
  Forall2 (fun pe ls => extract_json j pe = Some ls) pes lss ->
  (List.concat lss = [] -> extract j pes = Some None) /\
  (forall x, List.length pes = 1%nat -> List.concat lss = [x] ->
             extract j pes = Some (Some x)) /\
  ((List.length pes <> 1%nat \/ List.length (List.concat lss) <> 1%nat) ->
   List.concat lss <> [] ->
   extract j pes = Some (Some (Array (List.concat lss)))).
Proof.
  intros j pes lss H; unfold extract; rewrite (flat_mapM_forall2 _ _ _ H); simpl.
  split; [|split].
  - intros ->; reflexivity.
  - intros x Hl ->; rewrite Hl; reflexivity.
  - intros Hor Hne; destruct (List.concat lss) as [|e rest]; [contradiction|].
    destruct Hor as [Hl|Hl]; apply Nat.eqb_neq in Hl; rewrite Hl;
      [reflexivity | rewrite andb_false_r; reflexivity].
Qed.

(** C2. An [Index] leg works on the value wrapped into a one-element array
    when it is not an array: the wildcard index concatenates the matches of
    every element, a literal index in bounds recurses on that element, one
    out of bounds matches nothing; [Index 0] alone on a non-array value
    returns that value. *)
Theorem extract_index_leg : forall rest j,
  ((forall a, j <> Array a) -> as_array j = [j]) /\
  extract_legs (Index PATH_EXPR_ARRAY_INDEX_ASTERISK :: rest) j
  = flat_mapM (extract_legs rest) (as_array j) /\
  (forall n c, (Z.of_nat n < 2 ^ 31)%Z -> nth_error (as_array j) n = Some c ->
     extract_legs (Index (Z.of_nat n) :: rest) j = extract_legs rest c) /\
  (forall n, (Z.of_nat n < 2 ^ 31)%Z -> (List.length (as_array j) <= n)%nat ->
     extract_legs (Index (Z.of_nat n) :: rest) j = Some []) /\
  ((forall a, j <> Array a) -> extract_legs [Index 0] j = Some [j]).
Proof.
  intros rest j; split; [|split; [|split; [|split]]].
  - destruct j; intros H; try reflexivity; exfalso; eapply H; reflexivity.
  - rewrite extract_legs_index; reflexivity.
  - intros n c Hn Hc; rewrite extract_legs_index, usize_of_i32_nat by exact Hn.
    assert (Hlt : (n < List.length (as_array j))%nat)
      by (apply nth_error_Some; congruence).
    replace (Z.eqb (Z.of_nat n) PATH_EXPR_ARRAY_INDEX_ASTERISK) with false
      by (symmetry; apply Z.eqb_neq; unfold PATH_EXPR_ARRAY_INDEX_ASTERISK; lia).
    replace (Z.ltb (Z.of_nat n) _) with true by (symmetry; apply Z.ltb_lt; lia).
    rewrite Nat2Z.id, Hc; reflexivity.
  - intros n Hn Hle; rewrite extract_legs_index, usize_of_i32_nat by exact Hn.
    replace (Z.eqb (Z.of_nat n) PATH_EXPR_ARRAY_INDEX_ASTERISK) with false
      by (symmetry; apply Z.eqb_neq; unfold PATH_EXPR_ARRAY_INDEX_ASTERISK; lia).
    replace (Z.ltb (Z.of_nat n) _) with false by (symmetry; apply Z.ltb_ge; lia).
    reflexivity.
  - destruct j; intros H; try reflexivity; exfalso; eapply H; reflexivity.
Qed.

(** C3. A [Key] leg matches nothing on a non-object; on an object, the
    wildcard key recurses on the values in ascending order of their keys
    ([get_sorted_keys] is sorted and lists exactly the keys), the result
    does not depend on the order the entries are stored in, a present
    literal key recurses on its value and an absent one matches nothing. *)
Theorem extract_key_leg : forall rest,
  (forall k j, (forall m, j <> Object m) ->
     extract_legs (Key k :: rest) j = Some []) /\
  (forall m, extract_legs (Key PATH_EXPR_ASTERISK :: rest) (Object m)
             = flat_mapM (extract_legs rest) (sorted_values m)) /\
  (forall m, Sorted text_le (get_sorted_keys m) /\
             Permutation (get_sorted_keys m) (map fst m)) /\
  (forall k m m', Permutation m m' -> NoDup (map fst m) ->
     extract_legs (Key k :: rest) (Object m)
     = extract_legs (Key k :: rest) (Object m')) /\
  (forall k m v, k <> PATH_EXPR_ASTERISK -> map_get m k = Some v ->
     extract_legs (Key k :: rest) (Object m) = extract_legs rest v) /\
  (forall k m, k <> PATH_EXPR_ASTERISK -> map_get m k = None ->
     extract_legs (Key k :: rest) (Object m) = Some []).
Proof.
  intros rest; split; [|split; [|split; [|split; [|split]]]].
  - intros k j Hj; apply extract_legs_key_other; exact Hj.
  - intros m; apply extract_legs_key_star.
  - intros m; split; [apply sort_keys_sorted | apply sort_keys_perm].
  - intros k m m' Hp Hnd.
    assert (Hg : forall k', map_get m k' = map_get m' k')
      by (intros; apply map_get_perm; assumption).
    destruct (text_eqb k PATH_EXPR_ASTERISK) eqn:E.
    + apply text_eqb_eq in E; subst.
      rewrite !extract_legs_key_star; unfold sorted_values, get_sorted_keys.
      rewrite (sort_keys_perm_eq _ _ (Permutation_map fst Hp)).
      f_equal; apply flat_map_ext; intros k'; rewrite Hg; reflexivity.
    + assert (Hk : k <> PATH_EXPR_ASTERISK)
        by (intros ->; rewrite text_eqb_refl in E; discriminate).
      rewrite !extract_legs_key_lit by exact Hk; rewrite Hg; reflexivity.
  - intros k m v Hk Hv; rewrite extract_legs_key_lit, Hv by exact Hk; reflexivity.
  - intros k m Hk Hv; rewrite extract_legs_key_lit, Hv by exact Hk; reflexivity.
Qed.

(** C4. A [DoubleAsterisk] leg first matches the rest of the expression on
    the value itself, then the whole expression (the leg kept) on each
    child: array elements in order, object values in ascending key order,
    none for a scalar. *)
Theorem extract_dstar_leg : forall rest j,
  extract_legs (DoubleAsterisk :: rest) j =
  let* r1 := extract_legs rest j in
  let* r2 := flat_mapM (extract_legs (DoubleAsterisk :: rest)) (json_children j) in
  Some (r1 ++ r2).
Proof. intros rest j; apply extract_legs_dstar. Qed.

(** C7. Neither [extract_json] nor [Json::extract] ever panics: every
    array index and map lookup they perform succeeds, whatever the value
    and the expressions. *)
Theorem extract_never_panics : forall j pe pes,
  extract_json j pe <> None /\ extract j pes <> None.
Proof.
  intros j pe pes; split; [apply extract_legs_some|].
  unfold extract.
  destruct (flat_mapM (extract_json j) pes) as [l|] eqn:E.
  - simpl; destruct l as [|e l]; [discriminate|].
    destruct (_ && _); discriminate.
  - exfalso; exact (flat_mapM_some _ _ (fun pe _ => extract_legs_some _ _) E).
Qed.

(** C10. An expression without wildcard keys, wildcard indexes or
    [DoubleAsterisk] legs matches at most one value, so [extract] with that
    single expression gives [None] or the match itself, never an array
    built by the aggregation. *)
Theorem extract_single_no_wildcard : forall j pe,
  forallb no_wildcard (legs pe) = true ->
  (exists l, extract_json j pe = Some l /\ (List.length l <= 1)%nat) /\
  (extract j [pe] = Some None \/
   exists x, extract_json j pe = Some [x] /\ extract j [pe] = Some (Some x)).
Proof.
  intros j pe Hw.
  destruct (extract_legs_no_wildcard (legs pe) j Hw) as [l [Hl Hlen]].
  change (extract_json j pe = Some l) in Hl.
  split; [exists l; split; assumption|].
  unfold extract; simpl; rewrite Hl; simpl.
  destruct l as [|x [|y l]]; simpl in Hlen.
  - left; reflexivity.
  - right; exists x; split; reflexivity.
  - lia.
Qed.

(** ** Sizes *)

Lemma le_list_sum : forall {A} (f : A -> nat) x l,
  In x l -> (f x <= list_sum (map f l))%nat.
Proof.
  intros A f x l; induction l as [|y l IH]; simpl; [contradiction|].
  intros [->|H]; [lia | specialize (IH H); lia].
Qed.

Lemma child_size : forall j c, In c (json_children j) -> (json_size c < json_size j)%nat.
Proof.
  intros [m|a| | | | |] c H; simpl in H; try contradiction.
  - apply sorted_values_in in H as [k Hk]; simpl.
    pose proof (le_list_sum (fun '(_, v) => json_size v) (k, c) m Hk); simpl in *; lia.
  - simpl; pose proof (le_list_sum json_size c a H); lia.
Qed.

(** C8. Every recursive call of [extract_json] either consumes a leg or
    keeps the expression and descends to a child of the value, so the
    call relation is well founded: the recursion terminates. *)
Theorem extract_json_terminates :
  (forall x y, rec_call x y ->
     (List.length (snd x) < List.length (snd y))%nat \/
     (snd x = snd y /\ (json_size (fst x) < json_size (fst y))%nat)) /\
  well_founded rec_call.
Proof.
  split.
  - intros x y H; inversion H; subst; simpl; try (left; lia).
    right; split; [reflexivity | apply child_size; assumption].
  - intros [j ls]; revert j; induction ls as [|leg rest IHls]; intros j.
    + constructor; intros y H; inversion H.
    + induction j as [j IHj] using (well_founded_induction (well_founded_ltof _ json_size)).
      constructor; intros [c ls'] H; inversion H; subst;
        first [ apply IHls | apply IHj; unfold ltof; apply child_size; assumption ].
Qed.

(** ** Unquoting *)

Ltac finish_acc IH :=
  match goal with
  | |- unquote_loop (?ret ++ [?x]) ?s' = map_res _ (unquote_loop [?x] ?s') =>
      rewrite (IH s' ltac:(unfold ltof; simpl; lia) (ret ++ [x])),
              (IH s' ltac:(unfold ltof; simpl; lia) [x]);
      destruct (unquote_loop [] s'); simpl; rewrite <- ?app_assoc; reflexivity
  end.

(** The output so far is a prefix of the final output. *)
Lemma unquote_loop_acc : forall s ret,
  unquote_loop ret s = map_res (app ret) (unquote_loop [] s).
Proof.
  intros s; induction s as [s IH] using (induction_ltof1 _ (@List.length uchar)).
  intros ret; destruct s as [|ch s1]; [simpl; rewrite app_nil_r; reflexivity|].
  simpl; destruct (N.eqb ch 92).
  - destruct s1 as [|c s2]; [reflexivity|].
    destruct (N.eqb c 117).
    + destruct s2 as [|u1 [|u2 [|u3 [|u4 s3]]]]; try reflexivity.
      destruct (decode_escaped_unicode _); [finish_acc IH | reflexivity].
    + destruct (simple_escape c); finish_acc IH.
  - finish_acc IH.
Qed.

(** A successful run on [s] leaves the loop at the start of what follows. *)
Lemma unquote_loop_app : forall s t ret r,
  unquote_loop ret s = Ok r -> unquote_loop ret (s ++ t) = unquote_loop r t.
Proof.
  intros s; induction s as [s IH] using (induction_ltof1 _ (@List.length uchar)).
  intros t ret r H; destruct s as [|ch s1].
  - simpl in H; injection H as <-; reflexivity.
  - simpl in H |- *; destruct (N.eqb ch 92).
    + destruct s1 as [|c s2]; [discriminate|]; simpl.
      destruct (N.eqb c 117).
      * destruct s2 as [|u1 [|u2 [|u3 [|u4 s3]]]]; try discriminate; simpl.
        destruct (decode_escaped_unicode _); [|discriminate].
        apply IH; [unfold ltof; simpl; lia | exact H].
      * destruct (simple_escape c); (apply IH; [unfold ltof; simpl; lia | exact H]).
    + apply IH; [unfold ltof; simpl; lia | exact H].
Qed.

(** C5. [unquote_string] copies unescaped chars, replaces a backslash and
    one of quote, b, f, n, r, t, backslash by 0x22, 0x08, 0x0C, 0x0A, 0x0D, 0x0B, 0x5C,
    drops the backslash before any other char but [u], and fails on a
    trailing lone backslash. *)
Theorem unquote_string_escapes :
  unquote_string [] = Ok [] /\
  (forall c s, c <> 92%N ->
     unquote_string (c :: s) = map_res (cons c) (unquote_string s)) /\
  (forall c e s, In (c, e) escape_table ->
     unquote_string (92%N :: c :: s) = map_res (cons e) (unquote_string s)) /\
  (forall c s, ~ In c (117%N :: map fst escape_table) ->
     unquote_string (92%N :: c :: s) = map_res (cons c) (unquote_string s)) /\
  (forall s r, unquote_string s = Ok r ->
     unquote_string (s ++ [92%N]) = Err MissingClosingQuote).
Proof.
  unfold unquote_string; split; [|split; [|split; [|split]]].
  - reflexivity.
  - intros c s Hc; simpl.
    replace (N.eqb c 92) with false by (symmetry; apply N.eqb_neq; exact Hc).
    apply unquote_loop_acc.
  - intros c e s Hin.
    simpl in Hin; repeat destruct Hin as [Hin|Hin]; try contradiction;
      injection Hin as <- <-; simpl; apply unquote_loop_acc.
  - intros c s Hc; simpl.
    assert (Hs : simple_escape c = None).
    { unfold simple_escape.
      repeat match goal with
      | |- context [N.eqb c ?k] =>
          let E := fresh in destruct (N.eqb c k) eqn:E;
            [apply N.eqb_eq in E; subst; exfalso; apply Hc; simpl; tauto|]
      end; reflexivity. }
    replace (N.eqb c 117) with false
      by (symmetry; apply N.eqb_neq; intros ->; apply Hc; left; reflexivity).
    rewrite Hs; apply unquote_loop_acc.
  - intros s r H; rewrite (unquote_loop_app _ _ _ _ H); reflexivity.
Qed.

(** C6, at the input [\u+597]: [u32::from_str_radix] takes the leading
    ['+'] as a sign, so the escape decodes to U+0597 instead of failing on
    the non-hex char. *)
Theorem unquote_plus_sign_accepted :
  unquote_string (txt "\u+597") = Ok [1431%N] /\
  hex_digit 43%N = None.
Proof. split; reflexivity. Qed.

(** C9. [unquote] decodes the text of a string with [unquote_string] and
    returns the text form of any other value, with no failure. *)
Theorem unquote_text_form : forall show_f64,
  (forall s, unquote show_f64 (String s) = unquote_string s) /\
  (forall j, (forall s, j <> String s) ->
     unquote show_f64 j = Ok (json_text show_f64 j)) /\
  unquote show_f64 JNone = Ok (txt "null") /\
  (forall b, unquote show_f64 (Boolean b)
             = Ok (if b then txt "true" else txt "false")) /\
  (forall z, unquote show_f64 (I64 z) = Ok (z_to_dec z)) /\
  (forall bits, unquote show_f64 (Double bits) = Ok (show_f64 bits)) /\
  (forall a, unquote show_f64 (Array a)
             = Ok (txt "[" ++ join (txt ",") (map (json_text show_f64) a) ++ txt "]")) /\
  (forall m, unquote show_f64 (Object m)
             = Ok (txt "{" ++
                   join (txt ",")
                     (map (fun kv => [34%N] ++ fst kv ++ [34%N; 58%N]
                                     ++ json_text show_f64 (snd kv)) m)
                   ++ txt "}")).
Proof.
  intros show_f64; repeat split;
    try (intros [] H; try reflexivity; exfalso; eapply H; reflexivity).
Qed.

(** ** Witnesses *)

(** C1 at a wildcard index matching once: the match comes back unwrapped. *)
Lemma extract_aggregation_witness :
  Forall2 (fun pe ls => extract_json (Array [Boolean true]) pe = Some ls)
    [pe [Index (-1)]] [[Boolean true]] /\
  extract (Array [Boolean true]) [pe [Index (-1)]] = Some (Some (Boolean true)).
Proof.
  assert (H : Forall2 (fun pe ls => extract_json (Array [Boolean true]) pe = Some ls)
                [pe [Index (-1)]] [[Boolean true]]) by (repeat constructor).
  split; [exact H|].
  apply (proj1 (proj2 (extract_aggregation _ _ _ H))); reflexivity.
Defined.

(** C10 at the literal key [c] of the test object. *)
Lemma extract_single_no_wildcard_witness :
  forallb no_wildcard (legs (pe [Key (txt "c")])) = true /\
  extract (Object obj_m) [pe [Key (txt "c")]] = Some (Some (Boolean false)).
Proof.
  assert (H : forallb no_wildcard (legs (pe [Key (txt "c")])) = true)
    by reflexivity.
  split; [exact H|].
  destruct (extract_single_no_wildcard (Object obj_m) (pe [Key (txt "c")]) H)
    as [_ [Hn|[x [Hx He]]]].
  - vm_compute in Hn; discriminate.
  - rewrite He; vm_compute in Hx; injection Hx as <-; reflexivity.
Defined.

(** ** Further properties of [functions.rs] *)

Lemma flat_mapM_ext : forall {A B} (f g : A -> option (list B)) l,
  (forall x, In x l -> f x = g x) -> flat_mapM f l = flat_mapM g l.
Proof.
  intros A B f g l H; induction l as [|x l IH]; simpl; auto.
  rewrite H by (left; reflexivity).
  rewrite IH by (intros; apply H; right; assumption); reflexivity.
Qed.

Lemma flat_mapM_app : forall {A B} (g : A -> option (list B)) l1 l2,
  flat_mapM g (l1 ++ l2) =
  let* a := flat_mapM g l1 in let* b := flat_mapM g l2 in Some (a ++ b).
Proof.
  intros A B g l1 l2; induction l1 as [|x l1 IH]; simpl.
  - destruct (flat_mapM g l2); reflexivity.
  - destruct (g x) as [r|]; simpl; auto.
    rewrite IH; destruct (flat_mapM g l1) as [a|]; simpl; auto.
    destruct (flat_mapM g l2); simpl; auto.
    rewrite app_assoc; reflexivity.
Qed.

Lemma flat_mapM_bind : forall {A B C} (f : A -> option (list B))
  (g : B -> option (list C)) l,
  flat_mapM (fun x => let* r := f x in flat_mapM g r) l
  = let* r := flat_mapM f l in flat_mapM g r.
Proof.
  intros A B C f g l; induction l as [|x l IH]; simpl; auto.
  destruct (f x) as [r|]; simpl; auto.
  rewrite IH; destruct (flat_mapM f l) as [rs|]; simpl.
  - rewrite flat_mapM_app; reflexivity.
  - destruct (flat_mapM g r); reflexivity.
Qed.

(** X1. Following the legs [ls1 ++ ls2] is following [ls1], then [ls2]
    from each match in order. *)
Theorem extract_legs_app : forall ls1 ls2 j,
  extract_legs (ls1 ++ ls2) j =
  let* r := extract_legs ls1 j in flat_mapM (extract_legs ls2) r.
Proof.
  induction ls1 as [|leg rest IH]; intros ls2 j.
  - simpl; destruct (extract_legs ls2 j); simpl; rewrite ?app_nil_r; reflexivity.
  - cbn [app]; destruct leg as [k|i|].
    + destruct (object_or_not j) as [[m ->]|Hj].
      * destruct (text_eqb k PATH_EXPR_ASTERISK) eqn:E.
        -- apply text_eqb_eq in E; subst; rewrite !extract_legs_key_star.
           rewrite <- flat_mapM_bind; apply flat_mapM_ext; intros; apply IH.
        -- assert (Hk : k <> PATH_EXPR_ASTERISK)
             by (intros ->; rewrite text_eqb_refl in E; discriminate).
           rewrite !extract_legs_key_lit by exact Hk.
           destruct (map_get m k); [apply IH | reflexivity].
      * rewrite !extract_legs_key_other by exact Hj; reflexivity.
    + rewrite !extract_legs_index.
      destruct (Z.eqb i PATH_EXPR_ARRAY_INDEX_ASTERISK).
      * rewrite <- flat_mapM_bind; apply flat_mapM_ext; intros; apply IH.
      * destruct (Z.ltb _ _); [|reflexivity].
        destruct (nth_error _ _); [apply IH | reflexivity].
    + assert (Hch : forall j0,
                (forall c, In c (json_children j0) ->
                   extract_legs (DoubleAsterisk :: rest ++ ls2) c =
                   let* r := extract_legs (DoubleAsterisk :: rest) c in
                   flat_mapM (extract_legs ls2) r) ->
                extract_legs (DoubleAsterisk :: rest ++ ls2) j0 =
                let* r := extract_legs (DoubleAsterisk :: rest) j0 in
                flat_mapM (extract_legs ls2) r).
      { intros j0 Hc; rewrite !extract_legs_dstar, IH.
        rewrite (flat_mapM_ext _ _ _ Hc), flat_mapM_bind.
        destruct (extract_legs rest j0) as [a|]; cbn [bind]; auto.
        destruct (flat_mapM (extract_legs (DoubleAsterisk :: rest)) (json_children j0))
          as [b|]; cbn [bind].
        - rewrite flat_mapM_app; reflexivity.
        - destruct (flat_mapM (extract_legs ls2) a); reflexivity. }
      induction j as [m Hm|a Ha| | | | |] using json_ind'; apply Hch;
        simpl json_children; try (intros c []).
      * intros c Hc; apply sorted_values_in in Hc as [k' Hk'].
        exact (proj1 (Forall_forall _ _) Hm _ Hk').
      * intros c Hc; exact (proj1 (Forall_forall _ _) Ha _ Hc).
Qed.

Lemma map_get_nodup : forall m k v,
  NoDup (map fst m) -> In (k, v) m -> map_get m k = Some v.
Proof.
  intros m k v; induction m as [|[k' v'] m IH]; simpl; [contradiction|].
  intros Hnd [He|Hin]; inversion Hnd as [|? ? Hn Hnd']; subst.
  - injection He as <- <-; rewrite text_eqb_refl; reflexivity.
  - destruct (text_eqb k k') eqn:E.
    + apply text_eqb_eq in E; subst; exfalso; apply Hn.
      apply (in_map fst) in Hin; exact Hin.
    + apply IH; assumption.
Qed.

Lemma flat_map_lookup_entries : forall m l,
  NoDup (map fst m) -> (forall e, In e l -> In e m) ->
  flat_map (fun k => match map_get m k with Some v => [v] | None => [] end)
    (map fst l) = map snd l.
Proof.
  intros m l Hnd; induction l as [|[k v] l IH]; intros Hl; simpl; auto.
  rewrite (map_get_nodup m k v Hnd) by (apply Hl; left; reflexivity).
  simpl; f_equal; apply IH; intros; apply Hl; right; assumption.
Qed.

Lemma flat_mapM_singleton : forall l, flat_mapM (extract_legs []) l = Some l.
Proof.
  induction l as [|x l IH]; [reflexivity|].
  change (flat_mapM (extract_legs []) (x :: l)) with
    (let* r := Some [x] in let* rs := flat_mapM (extract_legs []) l in Some (r ++ rs)).
  rewrite IH; reflexivity.
Qed.

(** X2. On an object with unique keys, the single leg [Key "*"] returns
    every value of the object exactly once, in ascending key order. *)
Theorem extract_key_star_all_values : forall m,
  NoDup (map fst m) ->
  extract_legs [Key PATH_EXPR_ASTERISK] (Object m) = Some (sorted_values m) /\
  Permutation (sorted_values m) (map snd m).
Proof.
  intros m Hnd; split.
  - exact (eq_trans (extract_legs_key_star [] m) (flat_mapM_singleton _)).
  - unfold sorted_values, get_sorted_keys.
    rewrite <- (flat_map_lookup_entries m m Hnd (fun e H => H)).
    apply (Permutation_flat_map _), sort_keys_perm.
Qed.

Lemma unquote_loop_plain : forall s ret,
  ~ In 92%N s -> unquote_loop ret s = Ok (ret ++ s).
Proof.
  induction s as [|c s IH]; intros ret Hs; simpl.
  - rewrite app_nil_r; reflexivity.
  - replace (N.eqb c 92) with false
      by (symmetry; apply N.eqb_neq; intros ->; apply Hs; left; reflexivity).
    rewrite IH by (intros H; apply Hs; right; exact H).
    rewrite <- app_assoc; reflexivity.
Qed.

(** X3. A text with no backslash is returned unchanged by
    [unquote_string]. *)
Theorem unquote_string_no_backslash : forall s,
  ~ In 92%N s -> unquote_string s = Ok s.
Proof. intros s Hs; exact (unquote_loop_plain s [] Hs). Qed.

Lemma unquote_loop_length : forall s ret r,
  unquote_loop ret s = Ok r -> (List.length r <= List.length ret + List.length s)%nat.
Proof.
  intros s; induction s as [s IH] using (induction_ltof1 _ (@List.length uchar)).
  intros ret r H; destruct s as [|ch s1].
  - simpl in H; injection H as <-; simpl; lia.
  - simpl in H; destruct (N.eqb ch 92).
    + destruct s1 as [|c s2]; [discriminate|].
      destruct (N.eqb c 117).
      * destruct s2 as [|u1 [|u2 [|u3 [|u4 s3]]]]; try discriminate.
        destruct (decode_escaped_unicode _); [|discriminate].
        apply IH in H; [|unfold ltof; simpl; lia].
        rewrite length_app in H; simpl in *; lia.
      * destruct (simple_escape c);
          (apply IH in H; [|unfold ltof; simpl; lia];
           rewrite length_app in H; simpl in *; lia).
    + apply IH in H; [|unfold ltof; simpl; lia].
      rewrite length_app in H; simpl in *; lia.
Qed.

(** X4. A successful [unquote_string] never returns more chars than it
    was given. *)
Theorem unquote_string_shrinks : forall s r,
  unquote_string s = Ok r -> (List.length r <= List.length s)%nat.
Proof. intros s r H; apply unquote_loop_length in H; simpl in H; lia. Qed.

Lemma hex_digit_lt : forall c d, hex_digit c = Some d -> (d < 16)%N.
Proof.
  unfold hex_digit; intros c d H.
  destruct ((48 <=? c) && (c <=? 57))%N eqn:E1;
    [injection H as <-; apply andb_true_iff in E1 as [Ha Hb];
     apply N.leb_le in Ha; apply N.leb_le in Hb; lia|].
  destruct ((97 <=? c) && (c <=? 102))%N eqn:E2;
    [injection H as <-; apply andb_true_iff in E2 as [Ha Hb];
     apply N.leb_le in Ha; apply N.leb_le in Hb; lia|].
  destruct ((65 <=? c) && (c <=? 70))%N eqn:E3; [|discriminate].
  injection H as <-; apply andb_true_iff in E3 as [Ha Hb];
    apply N.leb_le in Ha; apply N.leb_le in Hb; lia.
Qed.

(** X5. A backslash, [u] and four hex digits decode to the code point
    the digits spell (most significant first), and the rest is decoded
    after it; the escape fails exactly when that code point is a
    surrogate. *)
Theorem unquote_string_hex_escape : forall c1 c2 c3 c4 d1 d2 d3 d4 s,
  hex_digit c1 = Some d1 -> hex_digit c2 = Some d2 ->
  hex_digit c3 = Some d3 -> hex_digit c4 = Some d4 ->
  unquote_string (92%N :: 117%N :: c1 :: c2 :: c3 :: c4 :: s) =
  let v := (((d1 * 16 + d2) * 16 + d3) * 16 + d4)%N in
  if ((55296 <=? v) && (v <=? 57343))%N then Err (InvalidChar [c1; c2; c3; c4])
  else map_res (cons v) (unquote_string s).
Proof.
  intros c1 c2 c3 c4 d1 d2 d3 d4 s H1 H2 H3 H4.
  pose proof (hex_digit_lt _ _ H1); pose proof (hex_digit_lt _ _ H2).
  pose proof (hex_digit_lt _ _ H3); pose proof (hex_digit_lt _ _ H4).
  set (v := (((d1 * 16 + d2) * 16 + d3) * 16 + d4)%N).
  assert (Hd : decode_escaped_unicode [c1; c2; c3; c4] =
               if ((55296 <=? v) && (v <=? 57343))%N
               then Err (InvalidChar [c1; c2; c3; c4]) else Ok v).
  { unfold decode_escaped_unicode, u32_from_str_radix16.
    replace (N.eqb c1 43) with false
      by (destruct (N.eqb_spec c1 43); [subst; discriminate | reflexivity]).
    cbn [accumulate_digits]; rewrite H1.
    replace (0 * 16 + d1 <? 2 ^ 32)%N with true by (symmetry; apply N.ltb_lt; lia).
    cbn [accumulate_digits]; rewrite H2.
    replace ((0 * 16 + d1) * 16 + d2 <? 2 ^ 32)%N with true
      by (symmetry; apply N.ltb_lt; lia).
    cbn [accumulate_digits]; rewrite H3.
    replace (((0 * 16 + d1) * 16 + d2) * 16 + d3 <? 2 ^ 32)%N with true
      by (symmetry; apply N.ltb_lt; lia).
    cbn [accumulate_digits]; rewrite H4.
    replace ((((0 * 16 + d1) * 16 + d2) * 16 + d3) * 16 + d4 <? 2 ^ 32)%N with true
      by (symmetry; apply N.ltb_lt; lia).
    cbn [accumulate_digits].
    replace ((((0 * 16 + d1) * 16 + d2) * 16 + d3) * 16 + d4)%N with v
      by (unfold v; lia).
    unfold char_from_u32.
    assert (Hv : (v < 65536)%N) by (unfold v; lia).
    destruct (N.ltb_spec v 55296); destruct (N.leb_spec 57344 v);
      destruct (N.leb_spec v 1114111); destruct (N.leb_spec 55296 v);
      destruct (N.leb_spec v 57343); simpl; try reflexivity; lia. }
  unfold unquote_string.
  change (unquote_loop [] (92%N :: 117%N :: c1 :: c2 :: c3 :: c4 :: s)) with
    (match decode_escaped_unicode [c1; c2; c3; c4] with
     | Err e => Err e
     | Ok utf8 => unquote_loop ([] ++ [utf8]) s
     end).
  rewrite Hd; destruct (_ && _)%N; [reflexivity|].
  apply unquote_loop_acc.
Qed.







(** ** [SimulateTransport]: what one [send] does *)

Module TransportSimulateFacts.
Import TransportSimulate.

Lemma new_filters_map : forall strategy,
  new_filters strategy = map filter_of strategy.
Proof.
  intro strategy. unfold new_filters.
  assert (Hacc : forall acc, fold_left (fun filters s => filters ++ [filter_of s]) strategy acc
                        = acc ++ map filter_of strategy).
  { induction strategy as [|s st IH]; intro acc; simpl.
    - now rewrite app_nil_r.
    - rewrite IH, <- app_assoc. reflexivity. }
  apply Hacc.
Qed.

Lemma in_new_filters_ooo : forall strategy,
  In FilterOutOfOrder (new_filters strategy) <-> In OutOfOrder strategy.
Proof.
  intro strategy. rewrite new_filters_map, in_map_iff. split.
  - intros [s [Hs Hin]]. destruct s; try discriminate. exact Hin.
  - intro Hin. exists OutOfOrder. split; [reflexivity | exact Hin].
Qed.

Section Send.
Variables Msg T E : Type.
Variable trans_send : T -> Msg -> T * SendResult E.

Lemma run_before_ok : forall fs (w : World T) d,
  ~ In FilterOutOfOrder fs ->
  run_before fs w d =
  Some (mkWorld (rng w) (draws w + drop_count fs) (clock w + total_delay fs) (inner w),
        d || drops fs (rng w) (draws w)).
Proof.
  induction fs as [|f fs IH]; intros w d Hno; simpl.
  - destruct w; simpl. rewrite Nat.add_0_r, Z.add_0_r, orb_false_r. reflexivity.
  - assert (Hno' : ~ In FilterOutOfOrder fs) by (intro H; apply Hno; now right).
    destruct f as [rate|dur|]; simpl.
    + rewrite IH by exact Hno'. simpl.
      destruct (Z.ltb _ rate), d; simpl; f_equal; f_equal; f_equal; lia.
    + unfold sleep_ms. rewrite IH by exact Hno'. simpl.
      rewrite Z.add_assoc. reflexivity.
    + exfalso. apply Hno. now left.
Qed.


Lemma run_after_ok : forall fs (r : SendResult E),
  ~ In FilterOutOfOrder fs -> run_after fs r = Some r.
Proof.
  induction fs as [|f fs IH]; intros r Hno; simpl.
  - reflexivity.
  - destruct f; simpl; try (apply IH; intro H; apply Hno; now right).
    exfalso. apply Hno. now left.
Qed.

(** Without an [OutOfOrder] strategy, [send] evaluates the [before] of
    every filter in order (no short circuit): it draws one random value
    per [DropPacket] filter and sleeps the sum of the [Delay] latencies.
    If one of the draws falls under its rate the message is discarded,
    the wrapped transport is untouched and the result is [Ok(())];
    otherwise the result is that of the wrapped transport's [send]. *)
Theorem send_outcome : forall strategy (w : World T) (msg : Msg),
  ~ In OutOfOrder strategy ->
  let fs := new_filters strategy in
  let w1 := mkWorld (rng w) (draws w + drop_count fs) (clock w + total_delay fs) (inner w) in
  send trans_send fs w msg =
  Some (if drops fs (rng w) (draws w) then (w1, ROk)
        else let (t', r) := trans_send (inner w) msg in
             (mkWorld (rng w1) (draws w1) (clock w1) t', r)).
Proof.
  intros strategy w msg Hno fs w1.
  assert (Hfs : ~ In FilterOutOfOrder fs)
    by (unfold fs; rewrite in_new_filters_ooo; exact Hno).
  unfold send. rewrite (run_before_ok fs w false Hfs). simpl.
  assert (Hrev : ~ In FilterOutOfOrder (rev fs))
    by (rewrite <- in_rev; exact Hfs).
  destruct (drops fs (rng w) (draws w)); simpl.
  - rewrite run_after_ok by exact Hrev. reflexivity.
  - destruct (trans_send (inner w) msg) as [t' r].
    rewrite run_after_ok by exact Hrev. reflexivity.
Qed.


Lemma drops_rate_100 : forall fs rngf n rate,
  In (FilterDropPacket rate) fs -> (100 <= rate)%Z -> drops fs rngf n = true.
Proof.
  induction fs as [|f fs IH]; intros rngf n rate Hin Hr; simpl in *.
  - contradiction.
  - destruct Hin as [Heq|Hin].
    + subst f.
      pose proof (Z.mod_pos_bound (rngf n mod 2 ^ 32) 100 ltac:(lia)) as B. simpl in B.
      apply orb_true_intro. left. apply Z.ltb_lt. lia.
    + destruct f; try (apply (IH _ _ rate); assumption).
      rewrite (IH _ _ rate Hin Hr). apply orb_true_r.
Qed.


(** A [DropPacket] rate of 100 or more drops every message: [send]
    returns [Ok(())] and never calls the wrapped transport. *)
Theorem send_drop_all : forall strategy (w : World T) (msg : Msg) rate,
  ~ In OutOfOrder strategy -> In (DropPacket rate) strategy -> (100 <= rate)%Z ->
  exists w', send trans_send (new_filters strategy) w msg = Some (w', ROk) /\ inner w' = inner w.
Proof.
  intros strategy w msg rate Hno Hin Hr.
  rewrite (send_outcome strategy w msg Hno).
  rewrite (drops_rate_100 _ _ _ rate); [eexists; split; reflexivity | | exact Hr].
  rewrite new_filters_map. change (FilterDropPacket rate) with (filter_of (DropPacket rate)).
  now apply in_map.
Qed.


End Send.

End TransportSimulateFacts.

(** ** The properties above, instantiated *)

Lemma extract_key_star_all_values_witness :
  NoDup (map fst obj_m) /\
  extract_legs [Key PATH_EXPR_ASTERISK] (Object obj_m) = Some (sorted_values obj_m) /\
  Permutation (sorted_values obj_m) (map snd obj_m).
Proof.
  assert (H : NoDup (map fst obj_m)).
  { simpl. repeat constructor; simpl; intuition discriminate. }
  split; [exact H | exact (extract_key_star_all_values obj_m H)].
Defined.

Lemma unquote_string_no_backslash_witness :
  ~ In 92%N (txt "a/b") /\ unquote_string (txt "a/b") = Ok (txt "a/b").
Proof.
  assert (H : ~ In 92%N (txt "a/b")) by (simpl; intuition discriminate).
  split; [exact H | exact (unquote_string_no_backslash _ H)].
Defined.

Lemma unquote_string_shrinks_witness :
  unquote_string [97%N; 92%N; 116%N; 98%N] = Ok [97%N; 11%N; 98%N] /\
  (List.length [97%N; 11%N; 98%N] <= List.length [97%N; 92%N; 116%N; 98%N])%nat.
Proof.
  assert (H : unquote_string [97%N; 92%N; 116%N; 98%N] = Ok [97%N; 11%N; 98%N])
    by reflexivity.
  split; [exact H | exact (unquote_string_shrinks _ _ H)].
Defined.

Lemma unquote_string_hex_escape_witness :
  unquote_string [92%N; 117%N; 53%N; 57%N; 55%N; 100%N; 33%N] = Ok [22909%N; 33%N].
Proof.
  refine (eq_trans (unquote_string_hex_escape 53%N 57%N 55%N 100%N 5%N 9%N 7%N 13%N
                     [33%N] eq_refl eq_refl eq_refl eq_refl) _).
  reflexivity.
Defined.

Lemma send_outcome_witness :
  TransportSimulate.send record_send
    (TransportSimulate.new_filters [TransportSimulate.DropPacket 50; TransportSimulate.Delay 10])
    world0 4
  = Some (TransportSimulate.mkWorld (fun n => Z.of_nat (73 + 37 * n)) 1 10 [4],
          TransportSimulate.ROk).
Proof.
  refine (eq_trans (TransportSimulateFacts.send_outcome nat (list nat) unit record_send
                      [TransportSimulate.DropPacket 50; TransportSimulate.Delay 10] world0 4
                      ltac:(simpl; intuition discriminate)) _).
  reflexivity.
Defined.


Lemma send_drop_all_witness :
  exists w', TransportSimulate.send record_send
    (TransportSimulate.new_filters [TransportSimulate.Delay 5; TransportSimulate.DropPacket 100])
    world0 4 = Some (w', TransportSimulate.ROk) /\ TransportSimulate.inner w' = [].
Proof.
  exact (TransportSimulateFacts.send_drop_all nat (list nat) unit record_send
           [TransportSimulate.Delay 5; TransportSimulate.DropPacket 100] world0 4 100
           ltac:(simpl; intuition discriminate) ltac:(simpl; auto) ltac:(lia)).
Defined.


